(** * SniTun multiplexer channel and peer lifecycle

    A shallow embedding of [snitun/multiplexer/channel.py] together with the
    parts of the peer lifecycle that the specification describes.

    Python objects live in a store: every [asyncio.Queue] is a cell of a
    finite map, and a channel holds references to its own inbound queue and to
    the multiplexer's shared outbound queue.  A method body is a tree of
    effects (queue operations, logging, randomness); [run] executes such a
    tree against the store until it returns, raises, or has to wait at an
    [await], in which case the rest of the coroutine is handed back so that it
    can be resumed later. *)

From Stdlib Require Import ZArith List Floats.
From stdpp Require Import gmap list strings.

Local Open Scope Z_scope.

(** ** Values *)

Definition bytes := list Byte.byte.

#[global] Instance byte_eq_dec : EqDecision Byte.byte := Byte.byte_eq_dec.

(** [uuid.UUID]: the 128-bit integer of the identifier. *)
Definition UUID := N.

(** Modelled from the spec: the flow-type constants of
    [snitun/multiplexer/message.py], which is not part of the sources at hand.
    The spec gives NEW=0x01, DATA=0x02, CLOSE=0x04, PING=0x08. *)
Definition CHANNEL_FLOW_NEW : Z := 1.
Definition CHANNEL_FLOW_DATA : Z := 2.
Definition CHANNEL_FLOW_CLOSE : Z := 4.
Definition CHANNEL_FLOW_PING : Z := 8.

(** Modelled from the spec: the message record of
    [snitun/multiplexer/message.py].  [flow_type] is a plain integer field, as
    the comparisons in [channel.py] treat it. *)
Record MultiplexerMessage := mkMessage {
  channel_id : UUID;
  flow_type : Z;
  data : bytes
}.

(** Modelled from the spec: the constructor called with two arguments leaves
    the payload at its default, the empty byte string ("Data is empty for
    NEW/CLOSE"). *)
Definition MultiplexerMessage2 (i : UUID) (ft : Z) : MultiplexerMessage :=
  mkMessage i ft [].

Inductive exn :=
| MultiplexerTransportClose
| SniTunChallengeError
| RuntimeError.

#[global] Instance exn_eq_dec : EqDecision exn.
Proof. solve_decision. Defined.

Inductive log_level := DEBUG | WARNING.

Record log_record := mkLog {
  level : log_level;
  template : string;
  arg : UUID
}.

(** ** asyncio.Queue *)

Record Queue := mkQueue {
  maxsize : Z;
  items : list MultiplexerMessage
}.

Definition qsize (q : Queue) : Z := Z.of_nat (length (items q)).

(** [Queue.full]: a queue built with [maxsize <= 0] is never full. *)
Definition full (q : Queue) : bool :=
  if maxsize q <=? 0 then false else maxsize q <=? qsize q.

Definition put_nowait (q : Queue) (m : MultiplexerMessage) : Queue :=
  mkQueue (maxsize q) (items q ++ [m]).

(** ** The store *)

Definition qref := positive.

Record world := mkWorld {
  queues : gmap qref Queue;
  log : list log_record
}.

Definition set_queue (r : qref) (q : Queue) (w : world) : world :=
  mkWorld (<[r := q]> (queues w)) (log w).

Definition add_log (l : log_record) (w : world) : world :=
  mkWorld (queues w) (log w ++ [l]).

(** ** Method bodies as effect trees *)

Inductive code (A : Type) : Type :=
| Ret (a : A)
| Raise (e : exn)
| NewQueue (size : Z) (k : qref -> code A)
| QFull (r : qref) (k : bool -> code A)
| QPut (r : qref) (m : MultiplexerMessage) (k : code A)
| QGet (r : qref) (k : MultiplexerMessage -> code A)
| Uuid4 (k : UUID -> code A)
| Log (l : log_record) (k : code A).

Arguments Ret {A} a.
Arguments Raise {A} e.
Arguments NewQueue {A} size k.
Arguments QFull {A} r k.
Arguments QPut {A} r m k.
Arguments QGet {A} r k.
Arguments Uuid4 {A} k.
Arguments Log {A} l k.

Fixpoint bind {A B : Type} (c : code A) (f : A -> code B) : code B :=
  match c with
  | Ret a => f a
  | Raise e => Raise e
  | NewQueue n k => NewQueue n (fun r => bind (k r) f)
  | QFull r k => QFull r (fun b => bind (k b) f)
  | QPut r m k => QPut r m (bind k f)
  | QGet r k => QGet r (fun m => bind (k m) f)
  | Uuid4 k => Uuid4 (fun u => bind (k u) f)
  | Log l k => Log l (bind k f)
  end.

Declare Scope code_scope.
Delimit Scope code_scope with code.
Notation "x <- c ;; k" := (bind c (fun x => k))
  (at level 90, c at next level, right associativity) : code_scope.
Notation "c ;;; k" := (bind c (fun _ => k))
  (at level 90, right associativity) : code_scope.

(** The primitive statements. *)
Definition new_queue (n : Z) : code qref := NewQueue n Ret.
Definition queue_full (r : qref) : code bool := QFull r Ret.
Definition queue_put (r : qref) (m : MultiplexerMessage) : code unit :=
  QPut r m (Ret tt).
Definition queue_get (r : qref) : code MultiplexerMessage := QGet r Ret.
Definition uuid4 : code UUID := Uuid4 Ret.
Definition logger (lv : log_level) (t : string) (u : UUID) : code unit :=
  Log (mkLog lv t u) (Ret tt).

(** What one activation of a coroutine ends in. *)
Inductive outcome (A : Type) : Type :=
| Finished (a : A) (w : world)
| Failed (e : exn) (w : world)
| Parked (rest : code A) (w : world)
| Dangling.

Arguments Finished {A} a w.
Arguments Failed {A} e w.
Arguments Parked {A} rest w.
Arguments Dangling {A}.

(** [run c rand w]: execute [c] in store [w].  [rand] is the stream of values
    that [uuid.uuid4] draws, consumed from index [0].

    [await q.put(m)] loops while the queue is full and then calls
    [put_nowait]; [await q.get()] loops while it is empty.  A coroutine that
    has to wait is returned at the waiting statement, with the store as it
    stands; a reference that names no queue cannot arise from Python code and
    ends in [Dangling]. *)
Fixpoint run {A : Type} (c : code A) (rand : nat -> UUID) (w : world)
  : outcome A :=
  match c with
  | Ret a => Finished a w
  | Raise e => Failed e w
  | NewQueue n k =>
      let r := fresh (dom (queues w)) in
      run (k r) rand (set_queue r (mkQueue n []) w)
  | QFull r k =>
      match queues w !! r with
      | Some q => run (k (full q)) rand w
      | None => Dangling
      end
  | QPut r m k =>
      match queues w !! r with
      | Some q =>
          if full q then Parked c w
          else run k rand (set_queue r (put_nowait q m) w)
      | None => Dangling
      end
  | QGet r k =>
      match queues w !! r with
      | Some q =>
          match items q with
          | [] => Parked c w
          | m :: rest => run (k m) rand (set_queue r (mkQueue (maxsize q) rest) w)
          end
      | None => Dangling
      end
  | Uuid4 k => run (k (rand 0%nat)) (fun n => rand (S n)) w
  | Log l k => run k rand (add_log l w)
  end.

(** ** snitun/multiplexer/channel.py *)

Record MultiplexerChannel := mkChannel {
  _input : qref;
  _output : qref;
  _id : UUID
}.

Local Open Scope code_scope.

Definition __init__ (output : qref) : code MultiplexerChannel :=
  input <- new_queue 2 ;;
  i <- uuid4 ;;
  Ret (mkChannel input output i).

Definition uuid (self : MultiplexerChannel) : UUID := _id self.

Definition write (self : MultiplexerChannel) (d : bytes) : code unit :=
  let message := mkMessage (_id self) CHANNEL_FLOW_DATA d in
  queue_put (_output self) message ;;;
  logger DEBUG "Write message to channel %s" (_id self).

Definition read (self : MultiplexerChannel) : code bytes :=
  message <- queue_get (_input self) ;;
  if flow_type message =? CHANNEL_FLOW_DATA then
    logger DEBUG "Read message to channel %s" (_id self) ;;;
    Ret (data message)
  else
    logger DEBUG "Read a close message for channel %s" (_id self) ;;;
    Raise MultiplexerTransportClose.

Definition init_close (self : MultiplexerChannel) : code MultiplexerMessage :=
  logger DEBUG "Close channel %s" (_id self) ;;;
  Ret (MultiplexerMessage2 (_id self) CHANNEL_FLOW_CLOSE).

Definition init_new (self : MultiplexerChannel) : code MultiplexerMessage :=
  logger DEBUG "New channel %s" (_id self) ;;;
  Ret (MultiplexerMessage2 (_id self) CHANNEL_FLOW_NEW).

Definition message_transport (self : MultiplexerChannel)
    (message : MultiplexerMessage) : code unit :=
  b <- queue_full (_input self) ;;
  if b then
    logger WARNING "Channel %s input is full" (_id self)
  else
    queue_put (_input self) message.

(** The store after [read] has taken the head of the inbound queue. *)
Definition after_get (self : MultiplexerChannel) (q : Queue)
    (rest : list MultiplexerMessage) (w : world) : world :=
  set_queue (_input self) (mkQueue (maxsize q) rest) w.

(** Queue [r] of the store has capacity [n] and holds at most [n] messages. *)
Definition bounded (r : qref) (n : Z) (w : world) : Prop :=
  exists q, queues w !! r = Some q /\ maxsize q = n /\ qsize q <= n.

(** A property of the store an activation ends in. *)
Definition ends_in {A : Type} (P : world -> Prop) (o : outcome A) : Prop :=
  match o with
  | Finished _ w => P w
  | Failed _ w => P w
  | Parked _ w => P w
  | Dangling => True
  end.

(** ** Schedules of channel operations

    The methods of one channel, with their results dropped, so that
    activations of different methods can wait side by side. *)

Inductive call :=
| CallWrite (d : bytes)
| CallRead
| CallInitClose
| CallInitNew
| CallMessageTransport (m : MultiplexerMessage).

Definition method (self : MultiplexerChannel) (c : call) : code unit :=
  match c with
  | CallWrite d => write self d
  | CallRead => read self ;;; Ret tt
  | CallInitClose => init_close self ;;; Ret tt
  | CallInitNew => init_new self ;;; Ret tt
  | CallMessageTransport m => message_transport self m
  end.

(** The event loop: the store and the coroutines that wait at an [await]. *)
Record system := mkSystem {
  store : world;
  waiting : list (code unit)
}.

(** One turn of the loop: a method of the channel is called, a waiting
    coroutine is woken and tries again, or some other coroutine of the process
    (the multiplexer's reader and writer loops, a consumer) runs. *)
Inductive event :=
| Call (c : call)
| Resume (i : nat)
| Other (c : code unit).

Definition settle (o : outcome unit) (others : list (code unit))
    (s : system) : system :=
  match o with
  | Finished _ w => mkSystem w others
  | Failed _ w => mkSystem w others
  | Parked rest w => mkSystem w (others ++ [rest])
  | Dangling => s
  end.

Definition step (self : MultiplexerChannel) (rand : nat -> UUID)
    (s : system) (e : event) : system :=
  match e with
  | Call c => settle (run (method self c) rand (store s)) (waiting s) s
  | Resume i =>
      match waiting s !! i with
      | Some c => settle (run c rand (store s)) (delete i (waiting s)) s
      | None => s
      end
  | Other c => settle (run c rand (store s)) (waiting s) s
  end.

Definition steps (self : MultiplexerChannel) (rand : nat -> UUID)
    (s : system) (es : list event) : system :=
  fold_left (step self rand) es s.

(** ** Vocabulary for sequences of calls *)

(** How many more messages a queue takes before [full] holds; [None] for a
    queue without bound. *)
Definition room (q : Queue) : option nat :=
  if maxsize q <=? 0 then None
  else Some (Z.to_nat (maxsize q) - length (items q))%nat.

(** Of a sequence offered to the queue in a row, the part that gets in. *)
Definition accepted {A : Type} (q : Queue) (l : list A) : list A :=
  match room q with
  | None => l
  | Some k => take k l
  end.

(** The message that [write] builds from a payload. *)
Definition data_message (self : MultiplexerChannel) (d : bytes)
    : MultiplexerMessage :=
  mkMessage (_id self) CHANNEL_FLOW_DATA d.

(** A DATA message that carries the channel's own id. *)
Definition own_data (self : MultiplexerChannel) (m : MultiplexerMessage)
    : Prop :=
  channel_id m = _id self /\ flow_type m = CHANNEL_FLOW_DATA.

(** [puts_only r P c]: whatever [c] puts on queue [r] satisfies [P], and [c]
    takes nothing from [r]. *)
Fixpoint puts_only {A : Type} (r : qref) (P : MultiplexerMessage -> Prop)
    (c : code A) : Prop :=
  match c with
  | Ret _ => True
  | Raise _ => True
  | NewQueue _ k => forall r', puts_only r P (k r')
  | QFull _ k => forall b, puts_only r P (k b)
  | QPut r' m k => (r' = r -> P m) /\ puts_only r P k
  | QGet r' k => r' <> r /\ forall m, puts_only r P (k m)
  | Uuid4 k => forall u, puts_only r P (k u)
  | Log _ k => puts_only r P k
  end.

(** The multiplexer's reader loop hands over a run of inbound messages, and a
    producer writes a run of payloads, without anything else in between. *)
Definition deliveries (ms : list MultiplexerMessage) : list event :=
  map (fun m => Call (CallMessageTransport m)) ms.

Definition writes (ds : list bytes) : list event :=
  map (fun d => Call (CallWrite d)) ds.

(** The warning of [message_transport]. *)
Definition input_full_warning (self : MultiplexerChannel) : log_record :=
  mkLog WARNING "Channel %s input is full" (_id self).

(** The debug line of [write]. *)
Definition write_debug (self : MultiplexerChannel) : log_record :=
  mkLog DEBUG "Write message to channel %s" (_id self).

(** What [read] makes of a message, and the debug line it writes for it. *)
Definition served (m : MultiplexerMessage) : exn + bytes :=
  if flow_type m =? CHANNEL_FLOW_DATA then inr (data m)
  else inl MultiplexerTransportClose.

Definition read_debug (self : MultiplexerChannel) (m : MultiplexerMessage)
    : log_record :=
  if flow_type m =? CHANNEL_FLOW_DATA then
    mkLog DEBUG "Read message to channel %s" (_id self)
  else
    mkLog DEBUG "Read a close message for channel %s" (_id self).

(** A consumer that calls [read] [n] times in a row and keeps what each call
    ended in; it stops at the first call that has to wait. *)
Fixpoint read_many (self : MultiplexerChannel) (rand : nat -> UUID)
    (w : world) (n : nat) : list (exn + bytes) * world :=
  match n with
  | O => ([], w)
  | S k =>
      match run (read self) rand w with
      | Finished d w' =>
          let '(l, w'') := read_many self rand w' k in (inr d :: l, w'')
      | Failed e w' =>
          let '(l, w'') := read_many self rand w' k in (inl e :: l, w'')
      | Parked _ _ => ([], w)
      | Dangling => ([], w)
      end
  end.

(** Queue [r] of the store is [q0] with some messages added at the back, all
    of which satisfy [P]. *)
Definition grown (r : qref) (P : MultiplexerMessage -> Prop) (q0 : Queue)
    (w : world) : Prop :=
  exists added,
    queues w !! r = Some (mkQueue (maxsize q0) (items q0 ++ added)) /\
    Forall P added.

(** An activation ends with queue [r] grown, and what is left of it to wait
    still puts only such messages. *)
Definition ends_grown {A : Type} (r : qref) (P : MultiplexerMessage -> Prop)
    (q0 : Queue) (o : outcome A) : Prop :=
  match o with
  | Finished _ w => grown r P q0 w
  | Failed _ w => grown r P q0 w
  | Parked rest w => grown r P q0 w /\ puts_only r P rest
  | Dangling => True
  end.

(** The state of the loop in which queue [r] is grown and every waiting
    coroutine puts only such messages. *)
Definition loop_grown (r : qref) (P : MultiplexerMessage -> Prop)
    (q0 : Queue) (s : system) : Prop :=
  grown r P q0 (store s) /\ Forall (puts_only r P) (waiting s).

(** The reading of "terminal for this channel": once a [read] has raised
    [MultiplexerTransportClose], no later [read] on the channel returns
    data. *)
Definition close_is_terminal (self : MultiplexerChannel) : Prop :=
  forall (rand rand' : nat -> UUID) (w w1 w2 : world) (d : bytes),
    run (read self) rand w = Failed MultiplexerTransportClose w1 ->
    run (read self) rand' w1 <> Finished d w2.

(** The turns of the loop that belong to the channel itself. *)
Definition own_event (e : event) : Prop :=
  match e with
  | Call _ => True
  | Resume _ => True
  | Other _ => False
  end.

(** ** The peer lifecycle

    [snitun/server/peer.py] and [snitun/multiplexer/core.py] are not part of
    the sources at hand; only their tests are.  The definitions of this
    section follow the specification's data model and its description of
    [init_multiplexer_challenge]. *)

(** Modelled from the spec: the true division [1 / throttling] that turns a
    byte rate into the throttle interval, "the reciprocal of the configured
    byte rate", on binary64 floats.  The conversion of the rate is exact below
    [2^53]. *)
Definition throttle_interval (rate : Z) : float :=
  (1 / PrimFloat.of_uint63 (Uint63.of_Z rate))%float.

(** Modelled from the spec: the states of a Peer, "Pending (constructed),
    Authenticating (challenge in flight), Ready (multiplexer running),
    Disconnected (terminal)". *)
Inductive peer_state := Pending | Authenticating | Ready | Disconnected.

#[global] Instance peer_state_eq_dec : EqDecision peer_state.
Proof. solve_decision. Defined.

(** Modelled from the spec: how a call of [wait_disconnect] of the missing
    [peer.py] can end. *)
Inductive wait_outcome :=
| WaitFails (e : exn)
| WaitSuspends
| WaitReturns.

Section PeerLifecycle.

(** The cipher and the hash are collaborators: a [CryptoTransport] is a
    counter state that both directions advance. *)
Variable CryptoTransport : Type.
Variable new_crypto : bytes -> bytes -> CryptoTransport.
Variable encrypt decrypt : CryptoTransport -> bytes -> bytes * CryptoTransport.
Variable sha256 : bytes -> bytes.

(** Modelled from the spec: the part of the Multiplexer that the peer
    sets up, "a CryptoTransport, ... a protocol version, ... an optional
    throttle interval (seconds per byte), and a disconnect signal". *)
Record Multiplexer := mkMultiplexer {
  _crypto : CryptoTransport;
  _version : Z;
  _throttling : option float;
  is_connected_mux : bool
}.

(** Modelled from the spec: the Peer, "hostname, optional alias,
    valid_until timestamp, AES key+IV, protocol version, optional throttling
    byte-rate, and, once authenticated, a Multiplexer", with its four
    states. *)
Record Peer := mkPeer {
  hostname : string;
  alias : option string;
  valid_until : Z;
  aes_key : bytes;
  aes_iv : bytes;
  protocol_version : Z;
  throttling : option Z;
  state : peer_state;
  multiplexer : option Multiplexer
}.

(** Modelled from the spec: construction leaves the peer Pending, without a
    multiplexer. *)
Definition new_peer (host : string) (valid : Z) (key iv : bytes)
    (version : Z) (al : option string) (thr : option Z) : Peer :=
  mkPeer host al valid key iv version thr Pending None.

(** Modelled from the spec: a transition of the peer's state, which in the
    missing [peer.py] is an assignment to the object. *)
Definition set_state (p : Peer) (s : peer_state)
    (m : option Multiplexer) : Peer :=
  mkPeer (hostname p) (alias p) (valid_until p) (aes_key p) (aes_iv p)
         (protocol_version p) (throttling p) s m.

(** Modelled from the spec: "[is_valid] iff now < valid_until"; [now] is the
    reading of the clock at the call. *)
Definition is_valid (p : Peer) (now : Z) : bool := now <? valid_until p.

(** Modelled from the spec: "[is_ready] iff state is Ready". *)
Definition is_ready (p : Peer) : bool :=
  bool_decide (state p = Ready).

(** Modelled from the spec: [is_connected] of the missing [peer.py], the
    multiplexer's own flag once there is a multiplexer. *)
Definition is_connected (p : Peer) : bool :=
  match multiplexer p with
  | Some m => is_connected_mux m
  | None => false
  end.

(** Modelled from the spec: steps 1 and 2 of the handshake.  [token] is the
    32 random bytes that step 1 draws; the result carries the bytes sent to
    the remote and the cipher state after encrypting them. *)
Definition send_challenge (p : Peer) (token : bytes)
    : Peer * CryptoTransport * bytes :=
  let '(challenge, c) := encrypt (new_crypto (aes_key p) (aes_iv p)) token in
  (set_state p Authenticating None, c, challenge).

(** Modelled from the spec: steps 3 and 4.  [reply] is the 32 bytes read from
    the remote.  "On mismatch fail with ChallengeError"; otherwise "construct
    the Multiplexer with the already-established CryptoTransport ...
    Transition to Ready". *)
Definition check_reply (p : Peer) (c : CryptoTransport)
    (token reply : bytes) : (exn + unit) * Peer :=
  let '(answer, c') := decrypt c reply in
  if decide (answer = sha256 token) then
    let m := mkMultiplexer c' (protocol_version p)
               (throttle_interval <$> throttling p) true in
    (inr tt, set_state p Ready (Some m))
  else
    (inl SniTunChallengeError, p).

(** Modelled from the spec: the cipher state with which step 3 decrypts the
    reply, the peer's own transport after it has encrypted the challenge. *)
Definition reply_cipher (p : Peer) (token : bytes) : CryptoTransport :=
  snd (encrypt (new_crypto (aes_key p) (aes_iv p)) token).

(** Modelled from the spec: [init_multiplexer_challenge] of the missing
    [peer.py], steps 1 to 4 in order.  A failure leaves the peer as it was
    when the error was raised. *)
Definition init_multiplexer_challenge (p : Peer) (token reply : bytes)
    : (exn + unit) * Peer :=
  let '(p1, c, _) := send_challenge p token in
  check_reply p1 c token reply.

(** Modelled from the spec: "[wait_disconnect] fails with a usage error when
    called before Ready"; the tests expect a [RuntimeError].  After Ready it
    waits for the multiplexer's disconnect signal. *)
Definition wait_disconnect (p : Peer) : wait_outcome :=
  match state p with
  | Pending | Authenticating => WaitFails RuntimeError
  | Ready => if is_connected p then WaitSuspends else WaitReturns
  | Disconnected => WaitReturns
  end.

End PeerLifecycle.

Arguments mkMultiplexer {CryptoTransport}.
Arguments _throttling {CryptoTransport}.
Arguments mkPeer {CryptoTransport}.
Arguments new_peer {CryptoTransport}.
Arguments state {CryptoTransport}.
Arguments multiplexer {CryptoTransport}.
Arguments valid_until {CryptoTransport}.
Arguments is_valid {CryptoTransport}.
Arguments is_ready {CryptoTransport}.
Arguments is_connected {CryptoTransport}.
Arguments wait_disconnect {CryptoTransport}.
Arguments init_multiplexer_challenge {CryptoTransport}.
Arguments send_challenge {CryptoTransport}.
Arguments check_reply {CryptoTransport}.
Arguments reply_cipher {CryptoTransport}.
Arguments set_state {CryptoTransport}.
Arguments throttling {CryptoTransport}.

(** ** A small running example

    One channel with id 7 whose inbound queue is cell 2, attached to an
    outbound queue of capacity 8 in cell 1. *)

Definition ex_channel : MultiplexerChannel := mkChannel 2%positive 1%positive 7%N.

Definition ex_rand : nat -> UUID := fun n => N.of_nat (7 + n).

Definition ex_hello : bytes :=
  [Byte.x68; Byte.x65; Byte.x6c; Byte.x6c; Byte.x6f].

Definition ex_data : MultiplexerMessage := mkMessage 7%N CHANNEL_FLOW_DATA ex_hello.
Definition ex_close : MultiplexerMessage := MultiplexerMessage2 7%N CHANNEL_FLOW_CLOSE.
Definition ex_new : MultiplexerMessage := MultiplexerMessage2 7%N CHANNEL_FLOW_NEW.
Definition ex_ping : MultiplexerMessage := MultiplexerMessage2 7%N CHANNEL_FLOW_PING.

(** The store with the given contents of the inbound and the outbound queue. *)
Definition ex_world (inbound outbound : list MultiplexerMessage) : world :=
  mkWorld (<[2%positive := mkQueue 2 inbound]>
             {[ 1%positive := mkQueue 8 outbound ]}) [].

(** A stand-in cipher and hash for running the handshake: the cipher state
    counts the bytes that went through, and leaves them as they are; the
    digest reverses its input. *)
Definition ex_new_crypto (key iv : bytes) : Z := 0.
Definition ex_crypt (c : Z) (b : bytes) : bytes * Z :=
  (b, c + Z.of_nat (length b)).
Definition ex_digest (b : bytes) : bytes := rev b.

Definition ex_token : bytes := repeat Byte.x41 31 ++ [Byte.x42].

Definition ex_peer (valid : Z) (thr : option Z) : Peer Z :=
  new_peer "localhost" valid (repeat Byte.x00 32) (repeat Byte.x00 16) 1
    None thr.

(** * Properties of the channel *)

Lemma full_spec (q : Queue) :
  full q = true <-> 0 < maxsize q <= qsize q.
Proof.
  unfold full. destruct (Z.leb_spec (maxsize q) 0).
  - split; [discriminate | lia].
  - rewrite Z.leb_le. lia.
Qed.

Lemma queues_add_log (l : log_record) (w : world) :
  queues (add_log l w) = queues w.
Proof. reflexivity. Qed.

Lemma set_queue_twice (r : qref) (q1 q2 : Queue) (w : world) :
  set_queue r q2 (set_queue r q1 w) = set_queue r q2 w.
Proof. unfold set_queue. simpl. by rewrite insert_insert_eq. Qed.

(** [read] on an empty inbound queue waits, and leaves the store alone. *)
Lemma read_waits (self : MultiplexerChannel) (rand : nat -> UUID)
    (w : world) (q : Queue) :
  queues w !! _input self = Some q ->
  items q = [] ->
  run (read self) rand w = Parked (read self) w.
Proof. intros Hq Hi. simpl. by rewrite Hq, Hi. Qed.

(** What [read] does with the message at the head of the inbound queue. *)
Lemma read_head (self : MultiplexerChannel) (rand : nat -> UUID)
    (w : world) (q : Queue) (m : MultiplexerMessage)
    (rest : list MultiplexerMessage) :
  queues w !! _input self = Some q ->
  items q = m :: rest ->
  run (read self) rand w =
    if flow_type m =? CHANNEL_FLOW_DATA then
      Finished (data m)
        (add_log (mkLog DEBUG "Read message to channel %s" (_id self))
           (after_get self q rest w))
    else
      Failed MultiplexerTransportClose
        (add_log (mkLog DEBUG "Read a close message for channel %s" (_id self))
           (after_get self q rest w)).
Proof.
  intros Hq Hi. simpl. rewrite Hq, Hi.
  by destruct (flow_type m =? CHANNEL_FLOW_DATA).
Qed.

(** C1: [read] takes the message at the head of the inbound queue and leaves
    the rest.  A DATA head makes it return the payload; a CLOSE head makes it
    raise [MultiplexerTransportClose].  The raise ends that call and leaves
    no mark on the channel: a DATA message queued behind the CLOSE is
    returned by the next [read]. *)
Theorem read_returns_data_raises_on_close (self : MultiplexerChannel)
    (rand : nat -> UUID) (w : world) (q : Queue) (m : MultiplexerMessage)
    (rest : list MultiplexerMessage) :
  queues w !! _input self = Some q ->
  items q = m :: rest ->
  (flow_type m = CHANNEL_FLOW_DATA ->
   run (read self) rand w =
     Finished (data m)
       (mkWorld (<[_input self := mkQueue (maxsize q) rest]> (queues w))
          (log w ++ [mkLog DEBUG "Read message to channel %s" (_id self)]))) /\
  (flow_type m = CHANNEL_FLOW_CLOSE ->
   run (read self) rand w =
     Failed MultiplexerTransportClose
       (mkWorld (<[_input self := mkQueue (maxsize q) rest]> (queues w))
          (log w ++ [mkLog DEBUG "Read a close message for channel %s"
                       (_id self)])) /\
   forall (rand' : nat -> UUID) (m' : MultiplexerMessage)
          (rest' : list MultiplexerMessage),
     rest = m' :: rest' ->
     flow_type m' = CHANNEL_FLOW_DATA ->
     run (read self) rand'
       (mkWorld (<[_input self := mkQueue (maxsize q) rest]> (queues w))
          (log w ++ [mkLog DEBUG "Read a close message for channel %s"
                       (_id self)])) =
       Finished (data m')
         (mkWorld (<[_input self := mkQueue (maxsize q) rest']> (queues w))
            (log w ++ [mkLog DEBUG "Read a close message for channel %s"
                         (_id self);
                       mkLog DEBUG "Read message to channel %s" (_id self)]))).
Proof.
  intros Hq Hi. rewrite (read_head self rand w q m rest Hq Hi).
  split.
  - intros ->. reflexivity.
  - intros ->. split; [reflexivity|].
    intros rand' m' rest' -> Hdata.
    rewrite (read_head self rand' _ (mkQueue (maxsize q) (m' :: rest'))
               m' rest') by (apply lookup_insert_eq || reflexivity).
    rewrite Hdata. unfold after_get, add_log, set_queue. simpl.
    by rewrite insert_insert_eq, <- app_assoc.
Qed.

Lemma read_returns_data_raises_on_close_witness :
  run (read ex_channel) ex_rand (ex_world [ex_data; ex_close] []) =
    Finished ex_hello
      (mkWorld (<[2%positive := mkQueue 2 [ex_close]]>
                  (queues (ex_world [ex_data; ex_close] [])))
         [mkLog DEBUG "Read message to channel %s" 7%N]) /\
  run (read ex_channel) ex_rand (ex_world [ex_close; ex_data] []) =
    Failed MultiplexerTransportClose
      (mkWorld (<[2%positive := mkQueue 2 [ex_data]]>
                  (queues (ex_world [ex_close; ex_data] [])))
         [mkLog DEBUG "Read a close message for channel %s" 7%N]) /\
  run (read ex_channel) ex_rand
      (mkWorld (<[2%positive := mkQueue 2 [ex_data]]>
                  (queues (ex_world [ex_close; ex_data] [])))
         [mkLog DEBUG "Read a close message for channel %s" 7%N]) =
    Finished ex_hello
      (mkWorld (<[2%positive := mkQueue 2 []]>
                  (queues (ex_world [ex_close; ex_data] [])))
         [mkLog DEBUG "Read a close message for channel %s" 7%N;
          mkLog DEBUG "Read message to channel %s" 7%N]).
Proof.
  split.
  - apply (read_returns_data_raises_on_close ex_channel ex_rand
             (ex_world [ex_data; ex_close] []) (mkQueue 2 [ex_data; ex_close])
             ex_data [ex_close]); reflexivity.
  - destruct (read_returns_data_raises_on_close ex_channel ex_rand
                (ex_world [ex_close; ex_data] [])
                (mkQueue 2 [ex_close; ex_data]) ex_close [ex_data]
                eq_refl eq_refl) as [_ Hclose].
    destruct (Hclose eq_refl) as [Hraise Hnext].
    split; [exact Hraise|].
    exact (Hnext ex_rand ex_data [] eq_refl eq_refl).
Defined.

(** C1, as the specification words it, fails: after the CLOSE at the head of
    the queue has made one [read] raise, the next [read] returns the payload
    of the DATA message queued behind it. *)
Lemma close_is_not_terminal : ~ close_is_terminal ex_channel.
Proof.
  intros Hterminal.
  apply (Hterminal ex_rand ex_rand
           (ex_world [ex_close; ex_data] [])
           (mkWorld (<[2%positive := mkQueue 2 [ex_data]]>
                       (queues (ex_world [ex_close; ex_data] [])))
              [mkLog DEBUG "Read a close message for channel %s" 7%N])
           (mkWorld (<[2%positive := mkQueue 2 []]>
                       (<[2%positive := mkQueue 2 [ex_data]]>
                          (queues (ex_world [ex_close; ex_data] []))))
              [mkLog DEBUG "Read a close message for channel %s" 7%N;
               mkLog DEBUG "Read message to channel %s" 7%N])
           ex_hello);
    reflexivity.
Qed.

(** C6: every message taken from the inbound queue whose flow type is not
    DATA makes [read] raise [MultiplexerTransportClose]: NEW and PING among
    them, and with the same outcome as a CLOSE message in the same place. *)
Theorem read_non_data_raises (self : MultiplexerChannel) (rand : nat -> UUID)
    (w : world) (q : Queue) (m : MultiplexerMessage)
    (rest : list MultiplexerMessage) :
  queues w !! _input self = Some q ->
  items q = m :: rest ->
  flow_type m <> CHANNEL_FLOW_DATA ->
  run (read self) rand w =
    Failed MultiplexerTransportClose
      (add_log (mkLog DEBUG "Read a close message for channel %s" (_id self))
         (after_get self q rest w)) /\
  run (read self) rand w =
    run (read self) rand
      (set_queue (_input self)
         (mkQueue (maxsize q)
            (MultiplexerMessage2 (_id self) CHANNEL_FLOW_CLOSE :: rest)) w).
Proof.
  intros Hq Hi Hft.
  assert (Hb : (flow_type m =? CHANNEL_FLOW_DATA) = false) by (by apply Z.eqb_neq).
  rewrite (read_head self rand w q m rest Hq Hi), Hb. split; [done|].
  rewrite (read_head self rand _
             (mkQueue (maxsize q)
                (MultiplexerMessage2 (_id self) CHANNEL_FLOW_CLOSE :: rest))
             (MultiplexerMessage2 (_id self) CHANNEL_FLOW_CLOSE) rest).
  - simpl. unfold after_get. simpl. by rewrite set_queue_twice.
  - simpl. apply lookup_insert_eq.
  - reflexivity.
Qed.

Lemma read_non_data_raises_witness :
  (run (read ex_channel) ex_rand (ex_world [ex_new; ex_data] []) =
     Failed MultiplexerTransportClose
       (add_log (mkLog DEBUG "Read a close message for channel %s" 7%N)
          (after_get ex_channel (mkQueue 2 [ex_new; ex_data]) [ex_data]
             (ex_world [ex_new; ex_data] []))) /\
   run (read ex_channel) ex_rand (ex_world [ex_new; ex_data] []) =
     run (read ex_channel) ex_rand
       (set_queue 2%positive (mkQueue 2 [ex_close; ex_data])
          (ex_world [ex_new; ex_data] []))) /\
  (run (read ex_channel) ex_rand (ex_world [ex_ping] []) =
     Failed MultiplexerTransportClose
       (add_log (mkLog DEBUG "Read a close message for channel %s" 7%N)
          (after_get ex_channel (mkQueue 2 [ex_ping]) []
             (ex_world [ex_ping] []))) /\
   run (read ex_channel) ex_rand (ex_world [ex_ping] []) =
     run (read ex_channel) ex_rand
       (set_queue 2%positive (mkQueue 2 [ex_close])
          (ex_world [ex_ping] []))).
Proof.
  split.
  - apply (read_non_data_raises ex_channel ex_rand
             (ex_world [ex_new; ex_data] []) (mkQueue 2 [ex_new; ex_data])
             ex_new [ex_data]); [reflexivity | reflexivity | discriminate].
  - apply (read_non_data_raises ex_channel ex_rand
             (ex_world [ex_ping] []) (mkQueue 2 [ex_ping])
             ex_ping []); [reflexivity | reflexivity | discriminate].
Defined.

(** C2: [message_transport] never waits.  When the inbound queue is full it
    adds one warning to the log and returns with every queue as it was;
    otherwise it puts the message at the back of the inbound queue and logs
    nothing. *)
Theorem message_transport_drops_or_enqueues (self : MultiplexerChannel)
    (rand : nat -> UUID) (w : world) (q : Queue) (m : MultiplexerMessage) :
  queues w !! _input self = Some q ->
  run (message_transport self m) rand w =
    if full q then
      Finished tt
        (mkWorld (queues w)
           (log w ++ [mkLog WARNING "Channel %s input is full" (_id self)]))
    else
      Finished tt
        (mkWorld
           (<[_input self := mkQueue (maxsize q) (items q ++ [m])]> (queues w))
           (log w)).
Proof.
  intros Hq. simpl. rewrite Hq.
  destruct (full q) eqn:Hfull; simpl; [done|].
  by rewrite Hq, Hfull.
Qed.

Lemma message_transport_drops_or_enqueues_witness :
  run (message_transport ex_channel ex_close) ex_rand
      (ex_world [ex_data; ex_data] []) =
    Finished tt
      (mkWorld (queues (ex_world [ex_data; ex_data] []))
         [mkLog WARNING "Channel %s input is full" 7%N]) /\
  run (message_transport ex_channel ex_close) ex_rand (ex_world [ex_data] []) =
    Finished tt
      (mkWorld
         (<[2%positive := mkQueue 2 [ex_data; ex_close]]>
            (queues (ex_world [ex_data] [])))
         []).
Proof.
  split.
  - apply (message_transport_drops_or_enqueues ex_channel ex_rand
             (ex_world [ex_data; ex_data] []) (mkQueue 2 [ex_data; ex_data])
             ex_close). reflexivity.
  - apply (message_transport_drops_or_enqueues ex_channel ex_rand
             (ex_world [ex_data] []) (mkQueue 2 [ex_data]) ex_close).
    reflexivity.
Defined.

(** C3: [write d] appends exactly one message to the outbound queue, made of
    the channel's id, the DATA flow type and [d], and touches no other queue;
    while the outbound queue is full the call waits with the store
    unchanged, to try the same [put] again when it is woken. *)
Theorem write_enqueues_one_data_message (self : MultiplexerChannel)
    (rand : nat -> UUID) (w : world) (q : Queue) (d : bytes) :
  queues w !! _output self = Some q ->
  run (write self d) rand w =
    if full q then Parked (write self d) w
    else
      Finished tt
        (add_log (mkLog DEBUG "Write message to channel %s" (_id self))
           (set_queue (_output self)
              (put_nowait q (mkMessage (_id self) CHANNEL_FLOW_DATA d)) w)).
Proof.
  intros Hq. simpl. rewrite Hq. by destruct (full q).
Qed.

Lemma write_enqueues_one_data_message_witness :
  run (write ex_channel ex_hello) ex_rand (ex_world [] [ex_new]) =
    Finished tt
      (add_log (mkLog DEBUG "Write message to channel %s" 7%N)
         (set_queue 1%positive (mkQueue 8 [ex_new; ex_data])
            (ex_world [] [ex_new]))) /\
  run (write ex_channel ex_hello) ex_rand (ex_world [] (repeat ex_data 8)) =
    Parked (write ex_channel ex_hello) (ex_world [] (repeat ex_data 8)).
Proof.
  split.
  - apply (write_enqueues_one_data_message ex_channel ex_rand
             (ex_world [] [ex_new]) (mkQueue 8 [ex_new]) ex_hello).
    reflexivity.
  - apply (write_enqueues_one_data_message ex_channel ex_rand
             (ex_world [] (repeat ex_data 8)) (mkQueue 8 (repeat ex_data 8))
             ex_hello).
    reflexivity.
Defined.

(** C4: [init_close] and [init_new] return a message with the channel's id,
    the CLOSE respectively NEW flow type and an empty payload; they write a
    debug line and leave every queue as it was. *)
Theorem init_close_and_init_new (self : MultiplexerChannel)
    (rand : nat -> UUID) (w : world) :
  run (init_close self) rand w =
    Finished (mkMessage (_id self) CHANNEL_FLOW_CLOSE [])
      (add_log (mkLog DEBUG "Close channel %s" (_id self)) w) /\
  run (init_new self) rand w =
    Finished (mkMessage (_id self) CHANNEL_FLOW_NEW [])
      (add_log (mkLog DEBUG "New channel %s" (_id self)) w) /\
  forall l, queues (add_log l w) = queues w.
Proof.
  split; [reflexivity|]. split; [reflexivity|].
  intros l. apply queues_add_log.
Qed.

(** ** Two schedules

    A [write] that finds the outbound queue full waits; once the writer loop
    has taken a message and the call is woken, its message is the last of the
    queue and nothing waits any more. *)
Example write_resumes_after_writer_took_one :
  let s := steps ex_channel ex_rand
             (mkSystem (ex_world [] (repeat ex_new 8)) [])
             [Call (CallWrite ex_hello);
              Other (queue_get 1%positive ;;; Ret tt);
              Resume 0%nat] in
  queues (store s) !! 1%positive
    = Some (mkQueue 8 (repeat ex_new 7 ++ [ex_data])) /\
  waiting s = [].
Proof. vm_compute. split; reflexivity. Qed.

(** Three deliveries in a row: the third finds the inbound queue full and is
    dropped; the reads then see the first two, in order, and the next read
    waits. *)
Example third_delivery_is_dropped :
  let s := steps ex_channel ex_rand (mkSystem (ex_world [] []) [])
             [Call (CallMessageTransport ex_data);
              Call (CallMessageTransport ex_close);
              Call (CallMessageTransport ex_ping)] in
  queues (store s) !! 2%positive = Some (mkQueue 2 [ex_data; ex_close]) /\
  map level (log (store s)) = [WARNING] /\
  waiting s = [].
Proof. vm_compute. repeat split; reflexivity. Qed.

(** ** The bound of the inbound queue *)

Section Bound.

Variable r : qref.
Variable n : Z.
Hypothesis n_pos : 0 < n.

Lemma bounded_other (r' : qref) (q' : Queue) (w : world) :
  r' <> r -> bounded r n w -> bounded r n (set_queue r' q' w).
Proof.
  intros Hne (q & Hq & Hm & Hs). exists q. simpl.
  by rewrite lookup_insert_ne.
Qed.

Lemma bounded_put (q : Queue) (m : MultiplexerMessage) (w : world) :
  queues w !! r = Some q -> full q = false -> bounded r n w ->
  bounded r n (set_queue r (put_nowait q m) w).
Proof.
  intros Hq Hfull (q' & Hq' & Hm & Hs).
  assert (q' = q) as -> by congruence.
  exists (put_nowait q m). simpl. rewrite lookup_insert_eq.
  split; [done|]. split; [done|].
  assert (Hnf : ~ (0 < maxsize q <= qsize q)).
  { rewrite <- full_spec. by rewrite Hfull. }
  unfold qsize in *. simpl. rewrite length_app. simpl. lia.
Qed.

Lemma bounded_get (q : Queue) (m : MultiplexerMessage)
    (rest : list MultiplexerMessage) (w : world) :
  queues w !! r = Some q -> items q = m :: rest -> bounded r n w ->
  bounded r n (set_queue r (mkQueue (maxsize q) rest) w).
Proof.
  intros Hq Hi (q' & Hq' & Hm & Hs).
  assert (q' = q) as -> by congruence.
  exists (mkQueue (maxsize q) rest). simpl. rewrite lookup_insert_eq.
  split; [done|]. split; [done|].
  unfold qsize in *. rewrite Hi in Hs. simpl in *. lia.
Qed.

(** Whatever a coroutine does through the queue interface, it leaves the
    bound of queue [r] in place. *)
Lemma run_keeps_bound {A : Type} (c : code A) :
  forall (rand : nat -> UUID) (w : world),
    bounded r n w -> ends_in (bounded r n) (run c rand w).
Proof.
  induction c as [a | e | size k IH | r' k IH | r' m k IH | r' k IH
                 | k IH | l k IH]; intros rand w Hb; simpl.
  - exact Hb.
  - exact Hb.
  - apply IH. apply bounded_other; [|exact Hb].
    intros Heq. destruct Hb as (q & Hq & _).
    assert (Hin : r ∈ dom (queues w)) by (apply elem_of_dom; eauto).
    rewrite <- Heq in Hin. by apply is_fresh in Hin.
  - destruct (queues w !! r') as [q|] eqn:Hq; [|exact I]. by apply IH.
  - destruct (queues w !! r') as [q|] eqn:Hq; [|exact I].
    destruct (full q) eqn:Hfull; [exact Hb|].
    apply IH. destruct (decide (r' = r)) as [->|Hne].
    + by apply bounded_put.
    + by apply bounded_other.
  - destruct (queues w !! r') as [q|] eqn:Hq; [|exact I].
    destruct (items q) as [|m rest] eqn:Hi; [exact Hb|].
    apply IH. destruct (decide (r' = r)) as [->|Hne].
    + by apply (bounded_get q m).
    + by apply bounded_other.
  - by apply IH.
  - apply IH. exact Hb.
Qed.

Lemma settle_keeps_bound (o : outcome unit) (others : list (code unit))
    (s : system) :
  ends_in (bounded r n) o -> bounded r n (store s) ->
  bounded r n (store (settle o others s)).
Proof. destruct o; simpl; auto. Qed.

Lemma step_keeps_bound (self : MultiplexerChannel) (rand : nat -> UUID)
    (s : system) (e : event) :
  bounded r n (store s) -> bounded r n (store (step self rand s e)).
Proof.
  intros Hb. destruct e as [c | i | c]; simpl.
  - apply settle_keeps_bound; [by apply run_keeps_bound | done].
  - destruct (waiting s !! i) as [c|]; [|done].
    apply settle_keeps_bound; [by apply run_keeps_bound | done].
  - apply settle_keeps_bound; [by apply run_keeps_bound | done].
Qed.

Lemma steps_keep_bound (self : MultiplexerChannel) (rand : nat -> UUID)
    (es : list event) :
  forall s, bounded r n (store s) -> bounded r n (store (steps self rand s es)).
Proof.
  induction es as [|e es IH]; intros s Hb; simpl; [done|].
  apply IH. by apply step_keeps_bound.
Qed.

End Bound.

(** C5: the constructor gives the channel a fresh, empty inbound queue of
    capacity 2, and from then on, whatever methods of the channel are called,
    whichever waiting coroutines are woken and whatever other coroutines run
    in between, the inbound queue keeps capacity 2 and holds at most 2
    messages. *)
Theorem inbound_queue_holds_at_most_two (output : qref) (rand : nat -> UUID)
    (w : world) :
  exists (self : MultiplexerChannel) (w1 : world),
    run (__init__ output) rand w = Finished self w1 /\
    queues w !! _input self = None /\
    queues w1 !! _input self = Some (mkQueue 2 []) /\
    forall (rand' : nat -> UUID) (sleepers : list (code unit))
           (es : list event),
    exists q,
      queues (store (steps self rand' (mkSystem w1 sleepers) es))
        !! _input self = Some q /\
      maxsize q = 2 /\
      (length (items q) <= 2)%nat.
Proof.
  set (r := fresh (dom (queues w))).
  exists (mkChannel r output (rand 0%nat)), (set_queue r (mkQueue 2 []) w).
  split; [reflexivity|]. simpl. split.
  { apply not_elem_of_dom. apply is_fresh. }
  split; [apply lookup_insert_eq|].
  intros rand' sleepers es.
  destruct (steps_keep_bound r 2 ltac:(lia) (mkChannel r output (rand 0%nat))
              rand' es (mkSystem (set_queue r (mkQueue 2 []) w) sleepers))
    as (q & Hq & Hm & Hs).
  - exists (mkQueue 2 []). simpl. rewrite lookup_insert_eq.
    split; [done|]. split; [done|]. unfold qsize. simpl. lia.
  - exists q. split; [exact Hq|]. split; [exact Hm|].
    unfold qsize in Hs. lia.
Qed.

(** * Properties of the peer lifecycle *)

(** A decimal float literal stands for the nearest binary64 value, as it does
    in Python. *)
#[local] Set Warnings "-inexact-float".

Section PeerProperties.

Variable CryptoTransport : Type.
Variable new_crypto : bytes -> bytes -> CryptoTransport.
Variable encrypt decrypt : CryptoTransport -> bytes -> bytes * CryptoTransport.
Variable sha256 : bytes -> bytes.

Lemma handshake_unfold (p : Peer CryptoTransport) (token reply : bytes) :
  init_multiplexer_challenge new_crypto encrypt decrypt sha256 p token reply =
    check_reply decrypt sha256
      (set_state p Authenticating None)
      (reply_cipher new_crypto encrypt p token) token reply.
Proof.
  unfold init_multiplexer_challenge, send_challenge, reply_cipher.
  by destruct (encrypt _ token).
Qed.

(** C7: when the decrypted reply differs from the SHA-256 of the challenge
    token, [init_multiplexer_challenge] fails with [SniTunChallengeError]
    and leaves the peer not ready, without a multiplexer. *)
Theorem wrong_reply_fails_challenge (p : Peer CryptoTransport)
    (token reply : bytes) :
  fst (decrypt (reply_cipher new_crypto encrypt p token) reply)
    <> sha256 token ->
  exists p',
    init_multiplexer_challenge new_crypto encrypt decrypt sha256
      p token reply = (inl SniTunChallengeError, p') /\
    is_ready p' = false /\
    multiplexer p' = None /\
    is_connected p' = false.
Proof.
  intros Hne. rewrite handshake_unfold. unfold check_reply.
  destruct (decrypt (reply_cipher new_crypto encrypt p token) reply)
    as [answer c'].
  simpl in Hne. destruct (decide (answer = sha256 token)); [done|].
  eexists. split; [reflexivity|]. by repeat split.
Qed.

(** The matching reply brings the peer to Ready, with a multiplexer whose
    throttle interval comes from the peer's byte rate. *)
Lemma right_reply_makes_ready (p : Peer CryptoTransport)
    (token reply : bytes) :
  fst (decrypt (reply_cipher new_crypto encrypt p token) reply)
    = sha256 token ->
  exists p' m,
    init_multiplexer_challenge new_crypto encrypt decrypt sha256
      p token reply = (inr tt, p') /\
    is_ready p' = true /\
    multiplexer p' = Some m /\
    _throttling m = throttle_interval <$> throttling p.
Proof.
  intros Heq. rewrite handshake_unfold. unfold check_reply.
  destruct (decrypt (reply_cipher new_crypto encrypt p token) reply)
    as [answer c'].
  simpl in Heq. destruct (decide (answer = sha256 token)); [|done].
  eexists _, _. split; [reflexivity|]. by repeat split.
Qed.

(** The handshake leaves the peer Authenticating when the reply is wrong. *)
Lemma wrong_reply_leaves_authenticating (p : Peer CryptoTransport)
    (token reply : bytes) :
  fst (decrypt (reply_cipher new_crypto encrypt p token) reply)
    <> sha256 token ->
  state (snd (init_multiplexer_challenge new_crypto encrypt decrypt sha256
                p token reply)) = Authenticating.
Proof.
  intros Hne. rewrite handshake_unfold. unfold check_reply.
  destruct (decrypt (reply_cipher new_crypto encrypt p token) reply)
    as [answer c'].
  simpl in Hne. by destruct (decide (answer = sha256 token)).
Qed.

(** C8: on a peer that has not reached Ready, [wait_disconnect] fails with
    the usage error; it neither suspends nor returns. *)
Theorem wait_disconnect_before_ready_fails (p : Peer CryptoTransport) :
  state p = Pending \/ state p = Authenticating ->
  wait_disconnect p = WaitFails RuntimeError.
Proof. unfold wait_disconnect. by intros [-> | ->]. Qed.

(** C9: [is_valid] holds exactly when the clock reads less than
    [valid_until]; from [valid_until] on it is false. *)
Theorem is_valid_iff_before_valid_until (p : Peer CryptoTransport)
    (now : Z) :
  (is_valid p now = true <-> now < valid_until p) /\
  (valid_until p <= now -> is_valid p now = false).
Proof.
  unfold is_valid. split.
  - apply Z.ltb_lt.
  - intros Hle. apply Z.ltb_ge. exact Hle.
Qed.

(** C10: after a successful handshake the multiplexer's throttle interval
    is 0.002 for a peer configured with 500 bytes per second, and absent
    for a peer without throttling. *)
Theorem throttling_500_gives_interval_0_002 (p : Peer CryptoTransport)
    (token reply : bytes) :
  fst (decrypt (reply_cipher new_crypto encrypt p token) reply)
    = sha256 token ->
  exists p' m,
    init_multiplexer_challenge new_crypto encrypt decrypt sha256
      p token reply = (inr tt, p') /\
    is_ready p' = true /\
    multiplexer p' = Some m /\
    (throttling p = Some 500 -> _throttling m = Some 0.002%float) /\
    (throttling p = None -> _throttling m = None).
Proof.
  intros Heq.
  destruct (right_reply_makes_ready p token reply Heq)
    as (p' & m & Hrun & Hready & Hm & Hthr).
  exists p', m. repeat split; try done.
  - intros H500. rewrite Hthr, H500. reflexivity.
  - intros Hnone. by rewrite Hthr, Hnone.
Qed.

End PeerProperties.

Lemma wrong_reply_fails_challenge_witness :
  exists p',
    init_multiplexer_challenge ex_new_crypto ex_crypt ex_crypt ex_digest
      (ex_peer 100 None) ex_token ex_token = (inl SniTunChallengeError, p') /\
    is_ready p' = false /\
    multiplexer p' = None /\
    is_connected p' = false.
Proof.
  apply (wrong_reply_fails_challenge Z ex_new_crypto ex_crypt ex_crypt
           ex_digest (ex_peer 100 None) ex_token ex_token).
  vm_compute. discriminate.
Defined.

Lemma wait_disconnect_before_ready_fails_witness :
  wait_disconnect (ex_peer 100 None) = WaitFails RuntimeError /\
  wait_disconnect (set_state (ex_peer 100 None) Authenticating None)
    = WaitFails RuntimeError.
Proof.
  split.
  - apply (wait_disconnect_before_ready_fails Z (ex_peer 100 None)).
    left. reflexivity.
  - apply (wait_disconnect_before_ready_fails Z
             (set_state (ex_peer 100 None) Authenticating None)).
    right. reflexivity.
Defined.

Lemma is_valid_iff_before_valid_until_witness :
  is_valid (ex_peer 100 None) 99 = true /\
  is_valid (ex_peer 100 None) 100 = false.
Proof.
  split.
  - apply (is_valid_iff_before_valid_until Z (ex_peer 100 None) 99).
    simpl. lia.
  - apply (is_valid_iff_before_valid_until Z (ex_peer 100 None) 100).
    simpl. lia.
Defined.

Lemma throttling_500_gives_interval_0_002_witness :
  exists p' m,
    init_multiplexer_challenge ex_new_crypto ex_crypt ex_crypt ex_digest
      (ex_peer 100 (Some 500)) ex_token (ex_digest ex_token) = (inr tt, p') /\
    multiplexer p' = Some m /\
    _throttling m = Some 0.002%float.
Proof.
  destruct (throttling_500_gives_interval_0_002 Z ex_new_crypto ex_crypt
              ex_crypt ex_digest (ex_peer 100 (Some 500)) ex_token
              (ex_digest ex_token))
    as (p' & m & Hrun & _ & Hm & H500 & _).
  - reflexivity.
  - exists p', m. split; [exact Hrun|]. split; [exact Hm|].
    apply H500. reflexivity.
Defined.

(** * Sequences of calls on one channel *)

Lemma message_transport_outcome (self : MultiplexerChannel)
    (rand : nat -> UUID) (w : world) (q : Queue) (m : MultiplexerMessage) :
  queues w !! _input self = Some q ->
  run (message_transport self m) rand w =
    if full q then
      Finished tt (add_log (input_full_warning self) w)
    else
      Finished tt (set_queue (_input self) (put_nowait q m) w).
Proof.
  intros Hq. simpl. rewrite Hq.
  destruct (full q) eqn:Hfull; simpl; [done|].
  by rewrite Hq, Hfull.
Qed.

Lemma write_outcome (self : MultiplexerChannel) (rand : nat -> UUID)
    (w : world) (q : Queue) (d : bytes) :
  queues w !! _output self = Some q ->
  run (write self d) rand w =
    if full q then Parked (write self d) w
    else
      Finished tt
        (add_log (write_debug self)
           (set_queue (_output self) (put_nowait q (data_message self d)) w)).
Proof.
  intros Hq. simpl. rewrite Hq. by destruct (full q).
Qed.

Lemma room_full (q : Queue) :
  full q = true <-> room q = Some 0%nat.
Proof.
  rewrite full_spec. unfold room, qsize.
  destruct (Z.leb_spec (maxsize q) 0); split.
  - lia.
  - discriminate.
  - intros [_ H']. f_equal. lia.
  - intros [= H']. lia.
Qed.

Lemma accepted_full {A : Type} (q : Queue) (l : list A) :
  full q = true -> accepted q l = [].
Proof.
  intros Hf. apply room_full in Hf. unfold accepted. by rewrite Hf.
Qed.

Lemma accepted_put {A : Type} (q : Queue) (m : MultiplexerMessage)
    (x : A) (l : list A) :
  full q = false ->
  accepted q (x :: l) = x :: accepted (put_nowait q m) l.
Proof.
  intros Hnf. unfold accepted, room. simpl.
  destruct (Z.leb_spec (maxsize q) 0) as [Hle|Hlt]; [done|].
  assert (Hroom : (length (items q) < Z.to_nat (maxsize q))%nat).
  { destruct (full q) eqn:Hf; [done|].
    assert (Hn : ~ (0 < maxsize q <= qsize q)).
    { rewrite <- full_spec. by rewrite Hf. }
    unfold qsize in Hn. lia. }
  rewrite length_app. simpl.
  replace (Z.to_nat (maxsize q) - length (items q))%nat
    with (S (Z.to_nat (maxsize q) - (length (items q) + 1)))%nat by lia.
  reflexivity.
Qed.

Lemma steps_cons (self : MultiplexerChannel) (rand : nat -> UUID)
    (s : system) (e : event) (es : list event) :
  steps self rand s (e :: es) = steps self rand (step self rand s e) es.
Proof. reflexivity. Qed.

Lemma step_call (self : MultiplexerChannel) (rand : nat -> UUID)
    (s : system) (c : call) :
  step self rand s (Call c) =
    settle (run (method self c) rand (store s)) (waiting s) s.
Proof. reflexivity. Qed.

Lemma accepted_nil {A : Type} (q : Queue) : accepted q (@nil A) = [].
Proof. unfold accepted. destruct (room q); [apply take_nil | done]. Qed.

Lemma world_same_queue (r : qref) (q : Queue) (w : world) :
  queues w !! r = Some q ->
  mkWorld (<[r := mkQueue (maxsize q) (items q)]> (queues w)) (log w) = w.
Proof.
  intros Hq. destruct w as [qs lg], q as [n its]. simpl in *.
  by rewrite insert_id.
Qed.

(** The loop after a run of deliveries. *)
Lemma deliveries_outcome (self : MultiplexerChannel)
    (rand : nat -> UUID) (sleepers : list (code unit))
    (ms : list MultiplexerMessage) :
  forall (w : world) (q : Queue),
  queues w !! _input self = Some q ->
  steps self rand (mkSystem w sleepers) (deliveries ms) =
    mkSystem
      (mkWorld
         (<[_input self := mkQueue (maxsize q) (items q ++ accepted q ms)]>
            (queues w))
         (log w ++ repeat (input_full_warning self)
                     (length ms - length (accepted q ms))))
      sleepers.
Proof.
  induction ms as [|m ms IH]; intros w q Hq.
  - simpl. rewrite accepted_nil, !app_nil_r.
    by rewrite (world_same_queue _ q w Hq).
  - change (deliveries (m :: ms))
      with (Call (CallMessageTransport m) :: deliveries ms).
    rewrite steps_cons, step_call.
    change (method self (CallMessageTransport m))
      with (message_transport self m).
    cbn [store waiting].
    rewrite (message_transport_outcome self rand w q m Hq).
    destruct (full q) eqn:Hfull; cbn [settle].
    + rewrite (IH (add_log (input_full_warning self) w) q Hq).
      rewrite !(accepted_full q) by done. simpl.
      rewrite Nat.sub_0_r, <- app_assoc. reflexivity.
    + rewrite (IH (set_queue (_input self) (put_nowait q m) w)
                 (put_nowait q m)) by apply lookup_insert_eq.
      rewrite (accepted_put q m m ms Hfull). simpl.
      rewrite insert_insert_eq, <- app_assoc. reflexivity.
Qed.

(** X1: a run of deliveries with no read in between fills the inbound queue
    with the first messages that fit, in their order, and drops every later
    one with one warning each; no delivery is left waiting. *)
Theorem deliveries_keep_the_first_that_fit (self : MultiplexerChannel)
    (rand : nat -> UUID) (sleepers : list (code unit))
    (ms : list MultiplexerMessage) :
  forall (w : world) (q : Queue),
  queues w !! _input self = Some q ->
  steps self rand (mkSystem w sleepers) (deliveries ms) =
    mkSystem
      (mkWorld
         (<[_input self := mkQueue (maxsize q) (items q ++ accepted q ms)]>
            (queues w))
         (log w ++ repeat (input_full_warning self)
                     (length ms - length (accepted q ms))))
      sleepers.
Proof.
  intros w q Hq. rewrite (deliveries_outcome self rand sleepers ms w q Hq).
  reflexivity.
Qed.

Lemma deliveries_keep_the_first_that_fit_witness :
  steps ex_channel ex_rand (mkSystem (ex_world [ex_new] []) [])
      (deliveries [ex_data; ex_close; ex_ping]) =
    mkSystem
      (mkWorld
         (<[2%positive := mkQueue 2 [ex_new; ex_data]]>
            (queues (ex_world [ex_new] [])))
         (repeat (input_full_warning ex_channel) 2))
      [].
Proof.
  apply (deliveries_keep_the_first_that_fit ex_channel ex_rand []
           [ex_data; ex_close; ex_ping] (ex_world [ex_new] [])
           (mkQueue 2 [ex_new])).
  reflexivity.
Defined.

(** X2: a run of writes with nothing else in between appends the DATA
    messages of the first payloads that fit to the outbound queue, in their
    order, one debug line each; the writes of all later payloads wait, in
    their order, and have changed nothing. *)
Theorem writes_enter_in_order_then_wait (self : MultiplexerChannel)
    (rand : nat -> UUID) (ds : list bytes) :
  forall (w : world) (q : Queue) (sleepers : list (code unit)),
  queues w !! _output self = Some q ->
  steps self rand (mkSystem w sleepers) (writes ds) =
    mkSystem
      (mkWorld
         (<[_output self :=
              mkQueue (maxsize q)
                (items q ++ map (data_message self) (accepted q ds))]>
            (queues w))
         (log w ++ repeat (write_debug self) (length (accepted q ds))))
      (sleepers ++ map (write self) (drop (length (accepted q ds)) ds)).
Proof.
  induction ds as [|d ds IH]; intros w q sleepers Hq.
  - simpl. rewrite accepted_nil. simpl. rewrite !app_nil_r.
    by rewrite (world_same_queue _ q w Hq).
  - change (writes (d :: ds)) with (Call (CallWrite d) :: writes ds).
    rewrite steps_cons, step_call.
    change (method self (CallWrite d)) with (write self d).
    cbn [store waiting].
    rewrite (write_outcome self rand w q d Hq).
    destruct (full q) eqn:Hfull; cbn [settle].
    + rewrite (IH w q (sleepers ++ [write self d]) Hq).
      rewrite !(accepted_full q) by done. simpl.
      rewrite drop_0, <- app_assoc. reflexivity.
    + rewrite (IH (add_log (write_debug self)
                     (set_queue (_output self)
                        (put_nowait q (data_message self d)) w))
                 (put_nowait q (data_message self d)) sleepers)
        by apply lookup_insert_eq.
      rewrite (accepted_put q (data_message self d) d ds Hfull). simpl.
      rewrite insert_insert_eq, <- !app_assoc. reflexivity.
Qed.

Lemma writes_enter_in_order_then_wait_witness :
  steps ex_channel ex_rand
      (mkSystem (ex_world [] (repeat ex_new 7)) [])
      (writes [ex_hello; []; ex_hello]) =
    mkSystem
      (mkWorld
         (<[1%positive := mkQueue 8 (repeat ex_new 7 ++ [ex_data])]>
            (queues (ex_world [] (repeat ex_new 7))))
         [write_debug ex_channel])
      [write ex_channel []; write ex_channel ex_hello].
Proof.
  apply (writes_enter_in_order_then_wait ex_channel ex_rand
           [ex_hello; []; ex_hello] (ex_world [] (repeat ex_new 7))
           (mkQueue 8 (repeat ex_new 7)) []).
  reflexivity.
Defined.

Lemma empty_not_full (q : Queue) : items q = [] -> full q = false.
Proof.
  intros Hi. destruct (full q) eqn:Hf; [|done].
  apply full_spec in Hf. unfold qsize in Hf. rewrite Hi in Hf. simpl in Hf. lia.
Qed.

Lemma read_outcome (self : MultiplexerChannel) (rand : nat -> UUID)
    (w : world) (q : Queue) (m : MultiplexerMessage)
    (rest : list MultiplexerMessage) :
  queues w !! _input self = Some q ->
  items q = m :: rest ->
  run (read self) rand w =
    match served m with
    | inr d => Finished d (add_log (read_debug self m) (after_get self q rest w))
    | inl e => Failed e (add_log (read_debug self m) (after_get self q rest w))
    end.
Proof.
  intros Hq Hi. rewrite (read_head self rand w q m rest Hq Hi).
  unfold served, read_debug. by destruct (flow_type m =? CHANNEL_FLOW_DATA).
Qed.

(** X3: a [read] on an empty inbound queue waits and changes nothing.  A
    message that is delivered then goes into the queue, and the read that is
    tried again takes it: it returns the payload of a DATA message and raises
    [MultiplexerTransportClose] for any other.  Afterwards the store is the
    one before, with the debug line of the read added. *)
Theorem waiting_read_is_served_by_delivery (self : MultiplexerChannel)
    (rand rand1 rand2 : nat -> UUID) (w : world) (q : Queue)
    (m : MultiplexerMessage) :
  queues w !! _input self = Some q ->
  items q = [] ->
  run (read self) rand w = Parked (read self) w /\
  exists w1,
    run (message_transport self m) rand1 w = Finished tt w1 /\
    queues w1 !! _input self = Some (mkQueue (maxsize q) [m]) /\
    run (read self) rand2 w1 =
      match served m with
      | inr d => Finished d (add_log (read_debug self m) w)
      | inl e => Failed e (add_log (read_debug self m) w)
      end.
Proof.
  intros Hq Hi. split; [by apply (read_waits self rand w q)|].
  exists (set_queue (_input self) (put_nowait q m) w).
  rewrite (message_transport_outcome self rand1 w q m Hq).
  rewrite (empty_not_full q Hi).
  split; [reflexivity|].
  assert (Hput : put_nowait q m = mkQueue (maxsize q) [m]).
  { unfold put_nowait. by rewrite Hi. }
  rewrite Hput. split; [apply lookup_insert_eq|].
  rewrite (read_outcome self rand2 _ (mkQueue (maxsize q) [m]) m [])
    by (apply lookup_insert_eq || reflexivity).
  unfold after_get. rewrite set_queue_twice. simpl.
  assert (Hw : set_queue (_input self) (mkQueue (maxsize q) []) w = w).
  { rewrite <- Hi. apply (world_same_queue _ q w Hq). }
  by rewrite Hw.
Qed.

Lemma waiting_read_is_served_by_delivery_witness :
  run (read ex_channel) ex_rand (ex_world [] []) =
    Parked (read ex_channel) (ex_world [] []) /\
  exists w1,
    run (message_transport ex_channel ex_data) ex_rand (ex_world [] []) =
      Finished tt w1 /\
    queues w1 !! 2%positive = Some (mkQueue 2 [ex_data]) /\
    run (read ex_channel) ex_rand w1 =
      Finished ex_hello
        (add_log (mkLog DEBUG "Read message to channel %s" 7%N)
           (ex_world [] [])).
Proof.
  apply (waiting_read_is_served_by_delivery ex_channel ex_rand ex_rand
           ex_rand (ex_world [] []) (mkQueue 2 []) ex_data);
    reflexivity.
Defined.

(** What a row of reads returns and leaves. *)
Lemma read_many_outcome (self : MultiplexerChannel)
    (rand : nat -> UUID) (front : list MultiplexerMessage) :
  forall (w : world) (q : Queue) (back : list MultiplexerMessage),
  queues w !! _input self = Some q ->
  items q = front ++ back ->
  read_many self rand w (length front) =
    (map served front,
     mkWorld (<[_input self := mkQueue (maxsize q) back]> (queues w))
             (log w ++ map (read_debug self) front)).
Proof.
  induction front as [|m front IH]; intros w q back Hq Hi.
  - simpl. rewrite app_nil_r. simpl in Hi. rewrite <- Hi.
    by rewrite (world_same_queue _ q w Hq).
  - cbn [length read_many].
    rewrite (read_outcome self rand w q m (front ++ back) Hq Hi).
    assert (Hnext :
      read_many self rand
        (add_log (read_debug self m) (after_get self q (front ++ back) w))
        (length front) =
      (map served front,
       mkWorld (<[_input self := mkQueue (maxsize q) back]> (queues w))
               (log w ++ map (read_debug self) (m :: front)))).
    { rewrite (IH _ (mkQueue (maxsize q) (front ++ back)) back)
        by (apply lookup_insert_eq || reflexivity).
      simpl. by rewrite insert_insert_eq, <- app_assoc. }
    destruct (served m) as [e|d] eqn:Hs; rewrite Hnext; simpl; by rewrite Hs.
Qed.

(** X4: [n] reads in a row serve the first [n] messages of the inbound queue
    from the front, each by its own flow type, and leave the rest.  The
    channel remembers nothing of a CLOSE it has served: a DATA message queued
    behind it is returned by the next read. *)
Theorem reads_serve_queue_front_to_back (self : MultiplexerChannel)
    (rand : nat -> UUID) (front : list MultiplexerMessage) :
  forall (w : world) (q : Queue) (back : list MultiplexerMessage),
  queues w !! _input self = Some q ->
  items q = front ++ back ->
  read_many self rand w (length front) =
    (map served front,
     mkWorld (<[_input self := mkQueue (maxsize q) back]> (queues w))
             (log w ++ map (read_debug self) front)).
Proof.
  intros w q back Hq Hi.
  rewrite (read_many_outcome self rand front w q back Hq Hi). reflexivity.
Qed.

Lemma reads_serve_queue_front_to_back_witness :
  read_many ex_channel ex_rand (ex_world [ex_close; ex_data] []) 2 =
    ([inl MultiplexerTransportClose; inr ex_hello],
     mkWorld (<[2%positive := mkQueue 2 []]>
                (queues (ex_world [ex_close; ex_data] [])))
             [mkLog DEBUG "Read a close message for channel %s" 7%N;
              mkLog DEBUG "Read message to channel %s" 7%N]).
Proof.
  apply (reads_serve_queue_front_to_back ex_channel ex_rand
           [ex_close; ex_data] (ex_world [ex_close; ex_data] [])
           (mkQueue 2 [ex_close; ex_data]) []);
    reflexivity.
Defined.

(** X5: through every schedule of calls on the channel, wake-ups and other
    coroutines, an outbound queue of positive capacity keeps its capacity and
    never holds more messages than that: a [write] that finds it full adds
    nothing. *)
Theorem outbound_queue_stays_within_capacity (self : MultiplexerChannel)
    (rand : nat -> UUID) (w : world) (q0 : Queue)
    (sleepers : list (code unit)) (es : list event) :
  queues w !! _output self = Some q0 ->
  0 < maxsize q0 ->
  qsize q0 <= maxsize q0 ->
  exists q,
    queues (store (steps self rand (mkSystem w sleepers) es))
      !! _output self = Some q /\
    maxsize q = maxsize q0 /\
    qsize q <= maxsize q0.
Proof.
  intros Hq Hpos Hsize.
  apply (steps_keep_bound (_output self) (maxsize q0) Hpos self rand es
           (mkSystem w sleepers)).
  exists q0. by repeat split.
Qed.

Lemma outbound_queue_stays_within_capacity_witness :
  exists q,
    queues (store (steps ex_channel ex_rand
                     (mkSystem (ex_world [] (repeat ex_new 7)) [])
                     (writes [ex_hello; ex_hello; ex_hello] ++ [Resume 1%nat])))
      !! 1%positive = Some q /\
    maxsize q = 8 /\
    qsize q <= 8.
Proof.
  apply (outbound_queue_stays_within_capacity ex_channel ex_rand
           (ex_world [] (repeat ex_new 7)) (mkQueue 8 (repeat ex_new 7)) []
           (writes [ex_hello; ex_hello; ex_hello] ++ [Resume 1%nat])).
  - reflexivity.
  - simpl. lia.
  - vm_compute. discriminate.
Defined.

(** ** What reaches the outbound queue *)

Section Grown.

Variable r : qref.
Variable P : MultiplexerMessage -> Prop.
Variable q0 : Queue.

Lemma grown_other (r' : qref) (q' : Queue) (w : world) :
  r' <> r -> grown r P q0 w -> grown r P q0 (set_queue r' q' w).
Proof.
  intros Hne (added & Hq & HP). exists added. simpl.
  by rewrite lookup_insert_ne.
Qed.

Lemma grown_put (q : Queue) (m : MultiplexerMessage) (w : world) :
  queues w !! r = Some q -> P m -> grown r P q0 w ->
  grown r P q0 (set_queue r (put_nowait q m) w).
Proof.
  intros Hq Hm (added & Hq' & HP).
  assert (q = mkQueue (maxsize q0) (items q0 ++ added)) as -> by congruence.
  exists (added ++ [m]). simpl. rewrite lookup_insert_eq.
  split.
  - unfold put_nowait. simpl. by rewrite app_assoc.
  - apply Forall_app. split; [done|]. by constructor.
Qed.

Lemma run_grows {A : Type} (c : code A) :
  forall (rand : nat -> UUID) (w : world),
    puts_only r P c -> grown r P q0 w -> ends_grown r P q0 (run c rand w).
Proof.
  induction c as [a | e | size k IH | r' k IH | r' m k IH | r' k IH
                 | k IH | l k IH]; intros rand w Hc Hg; simpl in *.
  - exact Hg.
  - exact Hg.
  - apply IH; [apply Hc|]. apply grown_other; [|exact Hg].
    intros Heq. destruct Hg as (added & Hq & _).
    assert (Hin : r ∈ dom (queues w)) by (apply elem_of_dom; eauto).
    rewrite <- Heq in Hin. by apply is_fresh in Hin.
  - destruct (queues w !! r') as [q|] eqn:Hq; [|exact I]. by apply IH.
  - destruct Hc as [Hm Hk].
    destruct (queues w !! r') as [q|] eqn:Hq; [|exact I].
    destruct (full q) eqn:Hfull; [by split|].
    apply IH; [exact Hk|]. destruct (decide (r' = r)) as [->|Hne].
    + apply grown_put; auto.
    + by apply grown_other.
  - destruct Hc as [Hne Hk].
    destruct (queues w !! r') as [q|] eqn:Hq; [|exact I].
    destruct (items q) as [|m rest] eqn:Hi; [by split|].
    apply IH; [apply Hk|]. by apply grown_other.
  - apply IH; [apply Hc | exact Hg].
  - apply IH; [exact Hc|]. exact Hg.
Qed.

Lemma settle_grown (o : outcome unit) (others : list (code unit))
    (s : system) :
  ends_grown r P q0 o -> Forall (puts_only r P) others ->
  loop_grown r P q0 s ->
  loop_grown r P q0 (settle o others s).
Proof.
  intros Ho Hothers Hs. destruct o as [a w | e w | rest w |]; simpl in *.
  - by split.
  - by split.
  - destruct Ho as [Hg Hrest]. split; [done|].
    apply Forall_app. split; [done|]. by constructor.
  - exact Hs.
Qed.

End Grown.

Lemma method_puts_only_own_data (self : MultiplexerChannel) (c : call) :
  _input self <> _output self ->
  puts_only (_output self) (own_data self) (method self c).
Proof.
  intros Hne. destruct c as [d | | | | m]; simpl.
  - split; [|done]. intros _. by split.
  - split; [done|]. intros m.
    by destruct (flow_type m =? CHANNEL_FLOW_DATA).
  - done.
  - done.
  - intros [|]; simpl; [done|]. split; [|done]. intros Heq. by destruct Hne.
Qed.

Lemma step_grown (self : MultiplexerChannel) (rand : nat -> UUID)
    (q0 : Queue) (s : system) (e : event) :
  _input self <> _output self ->
  own_event e ->
  loop_grown (_output self) (own_data self) q0 s ->
  loop_grown (_output self) (own_data self) q0 (step self rand s e).
Proof.
  intros Hne He Hs. destruct e as [c | i | c]; simpl in *.
  - apply settle_grown; [|apply Hs|exact Hs].
    apply run_grows; [by apply method_puts_only_own_data | apply Hs].
  - destruct (waiting s !! i) as [c|] eqn:Hi; [|exact Hs].
    destruct Hs as [Hg Hw].
    apply settle_grown; [| |by split].
    + apply run_grows; [|exact Hg].
      by apply (Forall_lookup_1 _ _ _ _ Hw Hi).
    + by apply Forall_delete.
  - destruct He.
Qed.

(** X6: as long as only the channel's own calls and wake-ups run, the
    outbound queue loses nothing and gains nothing but DATA messages with the
    channel's id: [init_new], [init_close], [read] and [message_transport]
    put nothing on it. *)
Theorem outbound_queue_gains_only_own_data (self : MultiplexerChannel)
    (rand : nat -> UUID) (q : Queue) (es : list event) :
  forall (w : world),
  _input self <> _output self ->
  queues w !! _output self = Some q ->
  Forall own_event es ->
  exists added,
    queues (store (steps self rand (mkSystem w []) es)) !! _output self
      = Some (mkQueue (maxsize q) (items q ++ added)) /\
    Forall (own_data self) added.
Proof.
  intros w Hne Hq Hes.
  assert (Hinv : forall s,
    loop_grown (_output self) (own_data self) q s ->
    loop_grown (_output self) (own_data self) q (steps self rand s es)).
  { induction Hes as [|e es He Hes IH]; intros s Hs; [exact Hs|].
    rewrite steps_cons. apply IH. by apply step_grown. }
  destruct (Hinv (mkSystem w [])) as [Hg _]; [|exact Hg].
  split; [|by constructor]. exists []. simpl. rewrite app_nil_r.
  split; [|by constructor]. rewrite Hq. by destruct q.
Qed.

Lemma outbound_queue_gains_only_own_data_witness :
  exists added,
    queues (store (steps ex_channel ex_rand
                     (mkSystem (ex_world [] [ex_new]) [])
                     [Call CallInitClose; Call (CallWrite ex_hello);
                      Call CallRead; Call (CallMessageTransport ex_close);
                      Resume 0%nat]))
      !! 1%positive = Some (mkQueue 8 ([ex_new] ++ added)) /\
    Forall (own_data ex_channel) added.
Proof.
  apply (outbound_queue_gains_only_own_data ex_channel ex_rand
           (mkQueue 8 [ex_new])
           [Call CallInitClose; Call (CallWrite ex_hello);
            Call CallRead; Call (CallMessageTransport ex_close);
            Resume 0%nat] (ex_world [] [ex_new])).
  - discriminate.
  - reflexivity.
  - repeat constructor.
Defined.

(** ** Construction *)

(** X7: two channels constructed one after the other over the same outbound
    queue get two different inbound queues, both new to the store, both empty
    with capacity 2, and the ids of the first two draws of [uuid4].  The
    constructions leave every queue that existed before untouched, the
    outbound queue among them, and write no log line. *)
Theorem two_channels_get_separate_inbound_queues (output : qref)
    (rand : nat -> UUID) (w : world) :
  exists (a b : MultiplexerChannel) (w2 : world),
    run (a <- __init__ output ;; b <- __init__ output ;; Ret (a, b)) rand w
      = Finished (a, b) w2 /\
    _input a <> _input b /\
    queues w !! _input a = None /\
    queues w !! _input b = None /\
    queues w2 !! _input a = Some (mkQueue 2 []) /\
    queues w2 !! _input b = Some (mkQueue 2 []) /\
    _output a = output /\ _output b = output /\
    _id a = rand 0%nat /\ _id b = rand 1%nat /\
    (forall r q, queues w !! r = Some q -> queues w2 !! r = Some q) /\
    log w2 = log w.
Proof.
  set (ra := fresh (dom (queues w))).
  set (wa := set_queue ra (mkQueue 2 []) w).
  set (rb := fresh (dom (queues wa))).
  assert (Hra : queues w !! ra = None).
  { apply not_elem_of_dom. apply is_fresh. }
  assert (Hrb : queues wa !! rb = None).
  { apply not_elem_of_dom. apply is_fresh. }
  assert (Hab : ra <> rb).
  { intros Heq. rewrite <- Heq in Hrb. unfold wa in Hrb. simpl in Hrb.
    by rewrite lookup_insert_eq in Hrb. }
  exists (mkChannel ra output (rand 0%nat)), (mkChannel rb output (rand 1%nat)),
         (set_queue rb (mkQueue 2 []) wa).
  split; [reflexivity|]. simpl.
  split; [exact Hab|]. split; [exact Hra|].
  split.
  { unfold wa in Hrb. simpl in Hrb. by rewrite lookup_insert_ne in Hrb. }
  split.
  { rewrite lookup_insert_ne by done. apply lookup_insert_eq. }
  split; [apply lookup_insert_eq|].
  repeat (split; [reflexivity|]).
  split; [|reflexivity].
  intros r q Hq.
  rewrite !lookup_insert_ne; [exact Hq | congruence |].
  intros Heq. rewrite <- Heq in Hq. unfold wa in Hrb. simpl in Hrb.
  rewrite lookup_insert_ne in Hrb by done. congruence.
Qed.

Lemma two_channels_get_separate_inbound_queues_witness :
  exists (a b : MultiplexerChannel) (w2 : world),
    run (a <- __init__ 1%positive ;; b <- __init__ 1%positive ;; Ret (a, b))
        ex_rand (ex_world [] []) = Finished (a, b) w2 /\
    _input a <> _input b /\
    _id a = 7%N /\ _id b = 8%N /\
    queues w2 !! 1%positive = Some (mkQueue 8 []).
Proof.
  destruct (two_channels_get_separate_inbound_queues 1%positive ex_rand
              (ex_world [] []))
    as (a & b & w2 & Hrun & Hne & _ & _ & _ & _ & _ & _ & Ha & Hb & Hold & _).
  exists a, b, w2. repeat split; try assumption.
  apply Hold. reflexivity.
Defined.

(** ** Back pressure *)

Lemma step_resume_last (self : MultiplexerChannel) (rand : nat -> UUID)
    (w : world) (sleepers : list (code unit)) (c : code unit) :
  step self rand (mkSystem w (sleepers ++ [c])) (Resume (length sleepers)) =
    settle (run c rand w) sleepers (mkSystem w (sleepers ++ [c])).
Proof.
  simpl. rewrite list_lookup_middle by done.
  by rewrite delete_middle, app_nil_r.
Qed.

(** X8: a [write] that found the outbound queue full stays in the loop.
    Woken while the queue is still full, it waits again and nothing has
    changed; woken after the writer loop has taken one message, it puts its
    DATA message at the back of the queue, once, and is gone from the
    waiting coroutines. *)
Theorem waiting_write_completes_after_a_get (self : MultiplexerChannel)
    (rand : nat -> UUID) (w : world) (q : Queue) (h : MultiplexerMessage)
    (t : list MultiplexerMessage) (d : bytes) (sleepers : list (code unit)) :
  queues w !! _output self = Some q ->
  items q = h :: t ->
  0 < maxsize q ->
  qsize q = maxsize q ->
  steps self rand (mkSystem w sleepers)
    [Call (CallWrite d); Resume (length sleepers)]
    = mkSystem w (sleepers ++ [write self d]) /\
  steps self rand (mkSystem w sleepers)
    [Call (CallWrite d);
     Other (queue_get (_output self) ;;; Ret tt);
     Resume (length sleepers)]
    = mkSystem
        (mkWorld
           (<[_output self :=
                mkQueue (maxsize q) (t ++ [data_message self d])]> (queues w))
           (log w ++ [write_debug self]))
        sleepers.
Proof.
  intros Hq Hi Hpos Hsize.
  assert (Hfull : full q = true) by (apply full_spec; lia).
  assert (Hcall : step self rand (mkSystem w sleepers) (Call (CallWrite d))
                  = mkSystem w (sleepers ++ [write self d])).
  { rewrite step_call.
    change (method self (CallWrite d)) with (write self d). cbn [store waiting].
    by rewrite (write_outcome self rand w q d Hq), Hfull. }
  split.
  - rewrite steps_cons, Hcall, steps_cons, step_resume_last.
    by rewrite (write_outcome self rand w q d Hq), Hfull.
  - rewrite steps_cons, Hcall, steps_cons.
    assert (Hget :
      step self rand (mkSystem w (sleepers ++ [write self d]))
        (Other (queue_get (_output self) ;;; Ret tt))
      = mkSystem (set_queue (_output self) (mkQueue (maxsize q) t) w)
          (sleepers ++ [write self d])).
    { simpl. by rewrite Hq, Hi. }
    rewrite Hget, steps_cons, step_resume_last.
    rewrite (write_outcome self rand _ (mkQueue (maxsize q) t) d)
      by apply lookup_insert_eq.
    assert (Hroom : full (mkQueue (maxsize q) t) = false).
    { destruct (full (mkQueue (maxsize q) t)) eqn:Hf; [|done].
      apply full_spec in Hf. unfold qsize in *. rewrite Hi in Hsize.
      simpl in *. lia. }
    rewrite Hroom. cbn [settle]. by rewrite set_queue_twice.
Qed.

Lemma waiting_write_completes_after_a_get_witness :
  steps ex_channel ex_rand (mkSystem (ex_world [] (repeat ex_new 8)) [])
    [Call (CallWrite ex_hello); Resume 0%nat]
    = mkSystem (ex_world [] (repeat ex_new 8)) [write ex_channel ex_hello] /\
  steps ex_channel ex_rand (mkSystem (ex_world [] (repeat ex_new 8)) [])
    [Call (CallWrite ex_hello);
     Other (queue_get 1%positive ;;; Ret tt);
     Resume 0%nat]
    = mkSystem
        (mkWorld
           (<[1%positive := mkQueue 8 (repeat ex_new 7 ++ [ex_data])]>
              (queues (ex_world [] (repeat ex_new 8))))
           [write_debug ex_channel])
        [].
Proof.
  apply (waiting_write_completes_after_a_get ex_channel ex_rand
           (ex_world [] (repeat ex_new 8)) (mkQueue 8 (repeat ex_new 8))
           ex_new (repeat ex_new 7) ex_hello []).
  - reflexivity.
  - reflexivity.
  - simpl. lia.
  - reflexivity.
Defined.

(** X9: a channel constructed over an existing outbound queue with room
    writes to that very queue, under the id that its [uuid] property shows,
    which is the value [uuid4] drew at construction; its own inbound queue is
    a different queue and stays empty. *)
Theorem constructed_channel_writes_under_its_uuid (output : qref)
    (rand rand' : nat -> UUID) (w : world) (q : Queue) (d : bytes) :
  queues w !! output = Some q ->
  full q = false ->
  exists (self : MultiplexerChannel) (w1 w2 : world),
    run (__init__ output) rand w = Finished self w1 /\
    uuid self = rand 0%nat /\
    _input self <> output /\
    run (write self d) rand' w1 = Finished tt w2 /\
    queues w2 !! output =
      Some (mkQueue (maxsize q)
              (items q ++ [mkMessage (uuid self) CHANNEL_FLOW_DATA d])) /\
    queues w2 !! _input self = Some (mkQueue 2 []).
Proof.
  intros Hq Hroom.
  set (r := fresh (dom (queues w))).
  set (self := mkChannel r output (rand 0%nat)).
  set (w1 := set_queue r (mkQueue 2 []) w).
  assert (Hne : r <> output).
  { intros Heq.
    assert (Hin : output ∈ dom (queues w)) by (apply elem_of_dom; eauto).
    rewrite <- Heq in Hin. by apply is_fresh in Hin. }
  assert (Hq1 : queues w1 !! _output self = Some q).
  { unfold w1. simpl. by rewrite lookup_insert_ne. }
  exists self, w1,
    (add_log (write_debug self)
       (set_queue (_output self) (put_nowait q (data_message self d)) w1)).
  split; [reflexivity|]. split; [reflexivity|]. split; [exact Hne|].
  split.
  { by rewrite (write_outcome self rand' w1 q d Hq1), Hroom. }
  simpl. split.
  - by rewrite lookup_insert_eq.
  - rewrite lookup_insert_ne by done. apply lookup_insert_eq.
Qed.

Lemma constructed_channel_writes_under_its_uuid_witness :
  exists (self : MultiplexerChannel) (w1 w2 : world),
    run (__init__ 1%positive) ex_rand (ex_world [] [ex_new]) =
      Finished self w1 /\
    uuid self = 7%N /\
    run (write self ex_hello) ex_rand w1 = Finished tt w2 /\
    queues w2 !! 1%positive =
      Some (mkQueue 8 ([ex_new] ++ [mkMessage (uuid self) CHANNEL_FLOW_DATA
                                      ex_hello])).
Proof.
  destruct (constructed_channel_writes_under_its_uuid 1%positive ex_rand
              ex_rand (ex_world [] [ex_new]) (mkQueue 8 [ex_new]) ex_hello)
    as (self & w1 & w2 & Hinit & Hid & _ & Hwrite & Hout & _).
  - reflexivity.
  - reflexivity.
  - exists self, w1, w2. repeat split; assumption.
Defined.

(** ** A burst of inbound messages *)

(** X10: of a burst of messages delivered to a channel whose inbound queue
    (capacity 2) is empty and that nobody reads meanwhile, the reads that
    follow get the first two, in the order of delivery, each served by its
    flow type; the read after those waits.  All later messages of the burst
    are lost, a CLOSE among them too. *)
Theorem burst_is_read_as_its_first_two (self : MultiplexerChannel)
    (rand rand' : nat -> UUID) (w : world) (sleepers : list (code unit))
    (ms : list MultiplexerMessage) :
  queues w !! _input self = Some (mkQueue 2 []) ->
  exists w1 w2,
    steps self rand (mkSystem w sleepers) (deliveries ms)
      = mkSystem w1 sleepers /\
    read_many self rand' w1 (length (take 2 ms))
      = (map served (take 2 ms), w2) /\
    run (read self) rand' w2 = Parked (read self) w2 /\
    read_many self rand' w1 (length ms) = (map served (take 2 ms), w2).
Proof.
  intros Hq.
  assert (Hacc : accepted (mkQueue 2 []) ms = take 2 ms) by reflexivity.
  pose proof (deliveries_outcome self rand sleepers ms w _ Hq) as Hdel.
  rewrite Hacc in Hdel. simpl in Hdel.
  set (w1 := mkWorld (<[_input self := mkQueue 2 (take 2 ms)]> (queues w))
               (log w ++ repeat (input_full_warning self)
                           (length ms - length (take 2 ms)))) in *.
  assert (Hq1 : queues w1 !! _input self = Some (mkQueue 2 (take 2 ms))).
  { apply lookup_insert_eq. }
  pose proof (read_many_outcome self rand' (take 2 ms) w1
                (mkQueue 2 (take 2 ms)) [] Hq1) as Hreads.
  simpl in Hreads. rewrite app_nil_r in Hreads. specialize (Hreads eq_refl).
  rewrite insert_insert_eq in Hreads.
  set (w2 := mkWorld (<[_input self := mkQueue 2 []]> (queues w))
               ((log w ++ repeat (input_full_warning self)
                            (length ms - length (take 2 ms)))
                ++ map (read_debug self) (take 2 ms))) in *.
  assert (Hwait : run (read self) rand' w2 = Parked (read self) w2).
  { apply (read_waits self rand' w2 (mkQueue 2 []));
      [apply lookup_insert_eq | reflexivity]. }
  exists w1, w2. split; [exact Hdel|]. split; [exact Hreads|].
  split; [exact Hwait|].
  assert (Hmore : forall k, read_many self rand' w2 k = ([], w2)).
  { intros [|k]; [reflexivity|]. cbn [read_many]. by rewrite Hwait. }
  assert (Hsplit : forall (front : list MultiplexerMessage) k w' res w'',
    read_many self rand' w' (length front) = (res, w'') ->
    length res = length front ->
    read_many self rand' w' (length front + k)
      = (res ++ fst (read_many self rand' w'' k),
         snd (read_many self rand' w'' k))).
  { induction front as [|m front IH]; intros k w' res w'' Hr Hlen.
    - simpl in Hr. injection Hr as <- <-. simpl.
      by destruct (read_many self rand' w' k).
    - cbn [length Nat.add read_many] in *.
      destruct (run (read self) rand' w') as [d wd | e wd | rest wd |];
        try (injection Hr as <- <-; discriminate).
      + destruct (read_many self rand' wd (length front)) as [l wl] eqn:Hl.
        injection Hr as <- <-. simpl in Hlen.
        rewrite (IH k wd l wl Hl) by lia. reflexivity.
      + destruct (read_many self rand' wd (length front)) as [l wl] eqn:Hl.
        injection Hr as <- <-. simpl in Hlen.
        rewrite (IH k wd l wl Hl) by lia. reflexivity. }
  replace (length ms)
    with (length (take 2 ms) + (length ms - length (take 2 ms)))%nat
    by (rewrite length_take; lia).
  rewrite (Hsplit (take 2 ms) _ w1 _ w2 Hreads)
    by (by rewrite length_map).
  by rewrite Hmore, app_nil_r.
Qed.

Lemma burst_is_read_as_its_first_two_witness :
  exists w1 w2,
    steps ex_channel ex_rand (mkSystem (ex_world [] []) [])
        (deliveries [ex_data; ex_ping; ex_close; ex_data])
      = mkSystem w1 [] /\
    read_many ex_channel ex_rand w1 2
      = ([inr ex_hello; inl MultiplexerTransportClose], w2) /\
    run (read ex_channel) ex_rand w2 = Parked (read ex_channel) w2.
Proof.
  destruct (burst_is_read_as_its_first_two ex_channel ex_rand ex_rand
              (ex_world [] []) [] [ex_data; ex_ping; ex_close; ex_data])
    as (w1 & w2 & Hdel & Hreads & Hwait & _).
  - reflexivity.
  - exists w1, w2. repeat split; assumption.
Defined.
